(** * Verification of the two TypeScript utilities of hackathon-2023-winter

    - [Inscribe.isLoggedIn]: src/projects/03-inscribe/src/Inscribe-app/src/utils/index.ts
    - [Polkadot.createRpcMethods] and the [PolkadotPlugin] constructor:
      src/projects/32-web3-plugin-polkadot/src/polkadot-plugin.ts

    JS objects used as dictionaries are modelled as [gmap string _]
    (plain dictionaries without a prototype chain); JS arrays as lists. *)

From stdpp Require Import base gmap strings list.

(** ** JavaScript values (the fragment the code touches) *)

Inductive value :=
  | VUndefined
  | VString (s : string)
  | VNumber (n : Z).

(** Strict equality [===] on this fragment. *)
Definition strict_eq (a b : value) : bool :=
  match a, b with
  | VUndefined, VUndefined => true
  | VString s, VString t => String.eqb s t
  | VNumber n, VNumber m => Z.eqb n m
  | _, _ => false
  end.

(** Exceptions a JS statement may raise. *)
Inductive exn :=
  | TypeError (msg : string).

(** ** State and exception monad: [W] is the state of the world the
    request-sending collaborator acts on. *)

Definition M (W A : Type) : Type := W -> (exn + A) * W.

Definition M_ret {W A} (x : A) : M W A := fun w => (inr x, w).
Definition M_bind {W A B} (f : A -> M W B) (m : M W A) : M W B :=
  fun w => match m w with
           | (inl e, w') => (inl e, w')
           | (inr x, w') => f x w'
           end.
Definition throw {W A} (e : exn) : M W A := fun w => (inl e, w).

Global Instance M_MRet W : MRet (M W) := fun A x => M_ret x.
Global Instance M_MBind W : MBind (M W) := fun A B f m => M_bind f m.

(** * [isLoggedIn] (utils/index.ts)

<<
const isLoggedIn = ({ address }: InjectedAccountWithMeta) =>
  localStorage[LOCAL_STORAGE.ACCOUNT] === address;
>> *)
Module Inscribe.

(** The account record of the extension API: [address] is a string. *)
Record InjectedAccountWithMeta := {
  address : string;
  meta_name : option string;
  meta_source : string
}.

(** [localStorage] holds strings; reading a missing key gives [undefined]. *)
Definition storage_get (localStorage : gmap string string) (k : string) : value :=
  match localStorage !! k with
  | Some v => VString v
  | None => VUndefined
  end.

Section Login.
(** [LOCAL_STORAGE.ACCOUNT], a fixed key imported from utils/consts. *)
Variable LOCAL_STORAGE_ACCOUNT : string.

Definition isLoggedIn (localStorage : gmap string string)
    (account : InjectedAccountWithMeta) : bool :=
  strict_eq (storage_get localStorage LOCAL_STORAGE_ACCOUNT)
            (VString (address account)).
End Login.

End Inscribe.

(** * [createRpcMethods] (polkadot-plugin.ts) *)
Module Polkadot.

(** The argument of [this.requestManager.send]. *)
Record request := {
  method : string;
  params : list value
}.

Section Plugin.
Context {W Resp : Type}.
(** [this.requestManager.send]: an arbitrary effectful operation. *)
Variable send : request -> M W Resp.

(** A JS function value [(args: any) => ...], called with any number
    of arguments. *)
Definition callable : Type := list value -> M W Resp.

(** The template literal [`${rpcNamespace}_${endpointName}`]. *)
Definition rpc_name (rpcNamespace endpointName : string) : string :=
  rpcNamespace +:+ "_" +:+ endpointName.

(** Binding of the single parameter [args]: the first argument, or
    [undefined] when the call passes none. *)
Definition first_arg (arguments : list value) : value :=
  match arguments with
  | a :: _ => a
  | [] => VUndefined
  end.

(** [(args: any) => this.requestManager.send({ method: ..., params: [args] })] *)
Definition endpoint_caller (rpcNamespace endpointName : string) : callable :=
  fun arguments =>
    send {| method := rpc_name rpcNamespace endpointName;
            params := [first_arg arguments] |}.

(** [Array.prototype.includes] on a string array. *)
Definition includes (xs : list string) (x : string) : bool :=
  existsb (String.eqb x) xs.

(** The inner loop [for (let endpointName of endpointNames) { ... }],
    threading the object [endPoints]. *)
Fixpoint fill_endpoints (rpcNamespace : string) (supported : list string)
    (endpointNames : list string) (endPoints : gmap string callable)
    : gmap string callable :=
  match endpointNames with
  | [] => endPoints
  | endpointName :: rest =>
      if negb (includes supported (rpc_name rpcNamespace endpointName))
      then fill_endpoints rpcNamespace supported rest endPoints  (* continue *)
      else fill_endpoints rpcNamespace supported rest
             (<[endpointName := endpoint_caller rpcNamespace endpointName]> endPoints)
  end.

(** [for ... of] over [rpcList[rpcNamespace]]: iterating [undefined]
    raises a [TypeError]. *)
Definition iterate (o : option (list string)) : M W (list string) :=
  match o with
  | Some l => mret l
  | None => throw (TypeError "endpointNames is not iterable")
  end.

(** [Object.keys] of a dictionary. *)
Definition object_keys {A} (o : gmap string A) : list string :=
  (map_to_list o).*1.

(** The outer loop [for (let rpcNamespace of objectKeys) { ... }],
    threading the object [returnedRpcMethods]. *)
Fixpoint fill_namespaces (rpcList : gmap string (list string))
    (supported : list string) (objectKeys : list string)
    (returnedRpcMethods : gmap string (gmap string callable))
    : M W (gmap string (gmap string callable)) :=
  match objectKeys with
  | [] => mret returnedRpcMethods
  | rpcNamespace :: rest =>
      endpointNames ← iterate (rpcList !! rpcNamespace);
      let endPoints := fill_endpoints rpcNamespace supported endpointNames ∅ in
      fill_namespaces rpcList supported rest
        (<[rpcNamespace := endPoints]> returnedRpcMethods)
  end.

Definition createRpcMethods (rpcList : gmap string (list string))
    (supported : list string) : M W (gmap string (gmap string callable)) :=
  fill_namespaces rpcList supported (object_keys rpcList) ∅.

(** The plugin object built by the constructor. *)
Record PolkadotPlugin := {
  pluginNamespace : string;
  polkadot : gmap string (gmap string callable);
  kusama : gmap string (gmap string callable);
  substrate : gmap string (gmap string callable)
}.

(** [constructor()]: the three catalogs and supported-method lists are
    imported constants, passed here as arguments. *)
Definition PolkadotPlugin_constructor
    (PolkadotRpcList KusamaRpcList SubstrateRpcList : gmap string (list string))
    (PolkadotSupportedRpcMethods KusamaSupportedRpcMethods
     SubstrateSupportedRpcMethods : list string) : M W PolkadotPlugin :=
  p ← createRpcMethods PolkadotRpcList PolkadotSupportedRpcMethods;
  k ← createRpcMethods KusamaRpcList KusamaSupportedRpcMethods;
  s ← createRpcMethods SubstrateRpcList SubstrateSupportedRpcMethods;
  mret {| pluginNamespace := "polka"; polkadot := p; kusama := k; substrate := s |}.

End Plugin.

End Polkadot.

(** ** A concrete request-sending collaborator: it records each request
    in a log and answers with the number of requests sent before it. *)
Module Logging.
Import Polkadot.

Definition log_send (r : request) : M (list request) nat :=
  fun log => (inr (length log), log ++ [r]).

(** A small catalog in the shape of the augment-api-rpc lists. *)
Definition sample_catalog : gmap string (list string) :=
  {[ "chain" := ["getBlock"; "getBlockHash"; "getBlock"];
     "state" := ["getStorage"] ]}.

Definition sample_supported : list string :=
  ["chain_getBlock"; "system_health"].

(** The table [createRpcMethods] builds from them. *)
Definition sample_table : gmap string (gmap string (callable (W:=list request) (Resp:=nat))) :=
  {[ "chain" := {[ "getBlock" := endpoint_caller log_send "chain" "getBlock" ]};
     "state" := ∅ ]}.

End Logging.

(** * Properties *)
Module Proofs.
Import Polkadot.

Lemma includes_spec (xs : list string) (x : string) :
  includes xs x = true <-> x ∈ xs.
Proof.
  unfold includes. rewrite existsb_exists. split.
  - intros [y [Hin Heq]]. apply String.eqb_eq in Heq. subst.
    by apply list_elem_of_In.
  - intros H. exists x. split; [by apply list_elem_of_In | apply String.eqb_refl].
Qed.

Lemma object_keys_spec {A} (o : gmap string A) k :
  k ∈ object_keys o <-> is_Some (o !! k).
Proof.
  unfold object_keys. rewrite list_elem_of_fmap. split.
  - intros [[k' v] [-> Hin]]. apply elem_of_map_to_list in Hin. simpl. eauto.
  - intros [v Hv]. exists (k, v). split; [done|]. by apply elem_of_map_to_list.
Qed.

Section Facts.
Context {W Resp : Type} (send : request -> M W Resp).

Lemma lookup_fill_endpoints ns (s names : list string) acc e :
  fill_endpoints send ns s names acc !! e =
  if decide (e ∈ names ∧ includes s (rpc_name ns e) = true)
  then Some (endpoint_caller send ns e) else acc !! e.
Proof.
  revert acc. induction names as [|n names IH]; intros acc; simpl.
  - done.
  - destruct (includes s (rpc_name ns n)) eqn:Hn; simpl; rewrite IH.
    + destruct (decide (e = n)) as [->|Hne].
      * rewrite lookup_insert_eq.
        repeat case_decide; try done; set_unfold; naive_solver.
      * rewrite lookup_insert_ne by congruence.
        repeat case_decide; try done; set_unfold; naive_solver.
    + repeat case_decide; try done; set_unfold; naive_solver congruence.
Qed.

Lemma fill_endpoints_ext ns (s1 s2 n1 n2 : list string) :
  (∀ e, (e ∈ n1 ∧ includes s1 (rpc_name ns e) = true) ↔
        (e ∈ n2 ∧ includes s2 (rpc_name ns e) = true)) →
  fill_endpoints send ns s1 n1 ∅ = fill_endpoints send ns s2 n2 ∅.
Proof.
  intros H. apply map_eq. intros e. rewrite !lookup_fill_endpoints.
  specialize (H e). repeat case_decide; naive_solver.
Qed.

(** The outer loop: every key it visits is bound to the table of its
    supported endpoints; the world is left unchanged. *)
Lemma fill_namespaces_spec (rpcList : gmap string (list string))
    (s keys : list string) acc w :
  (∀ k, k ∈ keys → is_Some (rpcList !! k)) →
  ∃ t, fill_namespaces send rpcList s keys acc w = (inr t, w) ∧
    ∀ ns, t !! ns = if decide (ns ∈ keys)
                    then (λ eps, fill_endpoints send ns s eps ∅) <$> rpcList !! ns
                    else acc !! ns.
Proof.
  revert acc. induction keys as [|k keys IH]; intros acc Hkeys; simpl.
  - exists acc. split; [done|]. intros ns. repeat case_decide; try done; set_solver.
  - destruct (Hkeys k) as [eps Heps]; [set_solver|].
    destruct (IH (<[k := fill_endpoints send k s eps ∅]> acc))
      as [t [Hrun Ht]]; [set_solver|].
    exists t. split.
    + unfold mbind, M_MBind, M_bind, iterate. rewrite Heps.
      unfold mret, M_MRet, M_ret. exact Hrun.
    + intros ns. rewrite Ht. destruct (decide (ns = k)) as [->|Hne].
      * rewrite lookup_insert_eq, Heps. repeat case_decide; try done; set_solver.
      * rewrite lookup_insert_ne by congruence.
        repeat case_decide; try done; set_solver.
Qed.

Lemma createRpcMethods_spec (rpcList : gmap string (list string))
    (s : list string) w :
  ∃ t, createRpcMethods send rpcList s w = (inr t, w) ∧
    ∀ ns, t !! ns = (λ eps, fill_endpoints send ns s eps ∅) <$> rpcList !! ns.
Proof.
  unfold createRpcMethods.
  destruct (fill_namespaces_spec rpcList s (object_keys rpcList) ∅ w)
    as [t [Hrun Ht]].
  { intros k. by rewrite object_keys_spec. }
  exists t. split; [done|]. intros ns. rewrite Ht. case_decide as Hin; [done|].
  rewrite object_keys_spec in Hin. rewrite lookup_empty.
  destruct (rpcList !! ns) eqn:E; [|done]. exfalso. eauto.
Qed.

Lemma createRpcMethods_result (rpcList : gmap string (list string))
    (s : list string) w t w' :
  createRpcMethods send rpcList s w = (inr t, w') →
  w' = w ∧
  ∀ ns, t !! ns = (λ eps, fill_endpoints send ns s eps ∅) <$> rpcList !! ns.
Proof.
  intros Hrun. destruct (createRpcMethods_spec rpcList s w) as [t0 [H0 Ht0]].
  rewrite Hrun in H0. injection H0 as -> ->. auto.
Qed.

Lemma createRpcMethods_ext (c1 c2 : gmap string (list string))
    (s1 s2 : list string) w :
  (∀ ns, (λ eps, fill_endpoints send ns s1 eps ∅) <$> c1 !! ns =
         (λ eps, fill_endpoints send ns s2 eps ∅) <$> c2 !! ns) →
  createRpcMethods send c1 s1 w = createRpcMethods send c2 s2 w.
Proof.
  intros H.
  destruct (createRpcMethods_spec c1 s1 w) as [t1 [-> H1]].
  destruct (createRpcMethods_spec c2 s2 w) as [t2 [-> H2]].
  do 2 f_equal. apply map_eq. intros ns. by rewrite H1, H2.
Qed.

(** C1. Every entry of the table built by [createRpcMethods] is
    justified by membership: the endpoint name is listed in the catalog
    under its namespace, its identifier ["N_e"] is in [supported], and
    the callable forwards exactly that identifier as the method name;
    an identifier absent from [supported] gives no entry. *)
Theorem createRpcMethods_entries_supported
    (c : gmap string (list string)) (s : list string) w t w' :
  createRpcMethods send c s w = (inr t, w') →
  (∀ ns inner ep f, t !! ns = Some inner → inner !! ep = Some f →
     (∃ eps, c !! ns = Some eps ∧ ep ∈ eps) ∧
     rpc_name ns ep ∈ s ∧
     ∀ arguments, f arguments =
       send {| method := rpc_name ns ep; params := [first_arg arguments] |}) ∧
  (∀ ns inner ep, t !! ns = Some inner → rpc_name ns ep ∉ s →
     inner !! ep = None).
Proof.
  intros Hrun. destruct (createRpcMethods_result c s w t w' Hrun) as [_ Ht].
  split.
  - intros ns inner ep f Hns Hep. rewrite Ht in Hns.
    destruct (c !! ns) as [eps|] eqn:Heps; simpl in Hns; [|discriminate].
    injection Hns as <-. rewrite lookup_fill_endpoints, lookup_empty in Hep.
    case_decide as Hd; [|discriminate]. injection Hep as <-.
    destruct Hd as [Hin Hinc]. apply includes_spec in Hinc.
    split; [eauto|]. split; [done|]. intros arguments. reflexivity.
  - intros ns inner ep Hns Hnot. rewrite Ht in Hns.
    destruct (c !! ns) as [eps|]; simpl in Hns; [|discriminate].
    injection Hns as <-. rewrite lookup_fill_endpoints, lookup_empty.
    case_decide as Hd; [|done]. destruct Hd as [_ Hinc].
    apply includes_spec in Hinc. contradiction.
Qed.

(** C2. For a supported endpoint [e] listed under namespace [N], the
    table holds a callable at [N], [e], and calling it with one argument
    [a] is exactly [send {method: "N_e", params: [a]}], whose result it
    returns. *)
Theorem createRpcMethods_call_forwards
    (c : gmap string (list string)) (s : list string) w t w'
    ns (eps : list string) e a :
  createRpcMethods send c s w = (inr t, w') →
  c !! ns = Some eps → e ∈ eps → rpc_name ns e ∈ s →
  ∃ inner f, t !! ns = Some inner ∧ inner !! e = Some f ∧
    f [a] = send {| method := rpc_name ns e; params := [a] |}.
Proof.
  intros Hrun Hns He Hsup. destruct (createRpcMethods_result c s w t w' Hrun) as [_ Ht].
  exists (fill_endpoints send ns s eps ∅), (endpoint_caller send ns e).
  split; [by rewrite Ht, Hns|]. split; [|reflexivity].
  rewrite lookup_fill_endpoints. rewrite decide_True; [done|].
  split; [done|]. by apply includes_spec.
Qed.

(** C3. The output has exactly the namespaces of the catalog as keys; a
    namespace none of whose endpoints is supported is mapped to the empty
    object; and the catalog [{ chain: [] }] with no supported method gives
    [{ chain: {} }]. *)
Theorem createRpcMethods_keeps_namespaces
    (c : gmap string (list string)) (s : list string) w t w' :
  createRpcMethods send c s w = (inr t, w') →
  dom t = dom c ∧
  (∀ ns (eps : list string), c !! ns = Some eps →
     (∀ e, e ∈ eps → rpc_name ns e ∉ s) → t !! ns = Some ∅) ∧
  createRpcMethods send {[ "chain" := [] ]} [] w =
    (inr {[ "chain" := ∅ ]}, w).
Proof.
  intros Hrun. destruct (createRpcMethods_result c s w t w' Hrun) as [_ Ht].
  split; [|split].
  - apply set_eq. intros ns. by rewrite !elem_of_dom, Ht, fmap_is_Some.
  - intros ns eps Hns Hnone. rewrite Ht, Hns. simpl. f_equal.
    apply map_eq. intros e. rewrite lookup_fill_endpoints, lookup_empty.
    case_decide as Hd; [|done]. destruct Hd as [Hin Hinc].
    apply includes_spec in Hinc. exfalso. by apply (Hnone e).
  - reflexivity.
Qed.

(** C5. Running [createRpcMethods] twice on the same catalog and
    supported list, in any two worlds (in particular the second run in
    the world left by the first), gives the same table: same keys and
    the same callables. *)
Theorem createRpcMethods_deterministic
    (c : gmap string (list string)) (s : list string) w1 w2 :
  fst (createRpcMethods send c s w1) = fst (createRpcMethods send c s w2).
Proof.
  destruct (createRpcMethods_spec c s w1) as [t1 [-> H1]].
  destruct (createRpcMethods_spec c s w2) as [t2 [-> H2]].
  simpl. f_equal. apply map_eq. intros ns. by rewrite H1, H2.
Qed.

(** C6. Duplicated endpoint names only overwrite the same key with the
    same callable: removing the duplicates from the list of a namespace
    does not change the result. *)
Theorem createRpcMethods_remove_dups
    (c : gmap string (list string)) (s : list string) ns w :
  createRpcMethods send (alter remove_dups ns c) s w =
  createRpcMethods send c s w.
Proof.
  apply createRpcMethods_ext. intros ns'.
  destruct (decide (ns = ns')) as [<-|Hne].
  - rewrite lookup_alter_eq. destruct (c !! ns) as [eps|]; [|done].
    simpl. f_equal. apply fill_endpoints_ext. intros e.
    by rewrite elem_of_remove_dups.
  - by rewrite lookup_alter_ne.
Qed.

(** C7. [createRpcMethods] always terminates normally: it never raises. *)
Theorem createRpcMethods_total
    (c : gmap string (list string)) (s : list string) w :
  ∃ t w', createRpcMethods send c s w = (inr t, w').
Proof.
  destruct (createRpcMethods_spec c s w) as [t [Hrun _]]. eauto.
Qed.

(** C8. Neither [createRpcMethods] nor the plugin constructor acts on
    the world of the request-sending collaborator: whatever [send] does,
    the world after construction is the world before it. Requests are
    only emitted when a built callable is called. *)
Theorem createRpcMethods_no_effect
    (c c1 c2 c3 : gmap string (list string)) (s s1 s2 s3 : list string) w :
  snd (createRpcMethods send c s w) = w ∧
  snd (PolkadotPlugin_constructor send c1 c2 c3 s1 s2 s3 w) = w.
Proof.
  split.
  - by destruct (createRpcMethods_spec c s w) as [t [-> _]].
  - unfold PolkadotPlugin_constructor, mbind, M_MBind, M_bind.
    destruct (createRpcMethods_spec c1 s1 w) as [t1 [-> _]].
    destruct (createRpcMethods_spec c2 s2 w) as [t2 [-> _]].
    by destruct (createRpcMethods_spec c3 s3 w) as [t3 [-> _]].
Qed.

(** C9. Every built callable sends a [params] list of exactly one
    element, whatever the number of arguments; called with no argument
    it sends [params: [undefined]]. *)
Theorem createRpcMethods_single_param
    (c : gmap string (list string)) (s : list string) w t w' ns inner e f :
  createRpcMethods send c s w = (inr t, w') →
  t !! ns = Some inner → inner !! e = Some f →
  (∀ arguments, ∃ a,
     f arguments = send {| method := rpc_name ns e; params := [a] |}) ∧
  f [] = send {| method := rpc_name ns e; params := [VUndefined] |}.
Proof.
  intros Hrun Hns He. destruct (createRpcMethods_result c s w t w' Hrun) as [_ Ht].
  rewrite Ht in Hns. destruct (c !! ns) as [eps|]; simpl in Hns; [|discriminate].
  injection Hns as <-. rewrite lookup_fill_endpoints, lookup_empty in He.
  case_decide; [|discriminate]. injection He as <-.
  split; [|reflexivity]. intros arguments. eexists. reflexivity.
Qed.

(** C10. The supported list matters only through the set of its
    elements: two lists with the same elements (in any order, with any
    repetition) give the same result. *)
Theorem createRpcMethods_supported_as_set
    (c : gmap string (list string)) (s1 s2 : list string) w :
  list_to_set s1 =@{gset string} list_to_set s2 →
  createRpcMethods send c s1 w = createRpcMethods send c s2 w.
Proof.
  intros Hset. apply createRpcMethods_ext. intros ns.
  destruct (c !! ns) as [eps|]; [|done]. simpl. f_equal.
  apply fill_endpoints_ext. intros e. rewrite !includes_spec.
  rewrite <-!(elem_of_list_to_set (C:=gset string)), Hset. done.
Qed.

(** ** Further properties of [createRpcMethods] and the constructor *)

(** The keys of the object built for a namespace are exactly the names of
    its catalog list whose identifier ["N_e"] is supported. *)
Theorem createRpcMethods_inner_keys
    (c : gmap string (list string)) (s : list string) w t w' ns
    (eps : list string) :
  createRpcMethods send c s w = (inr t, w') → c !! ns = Some eps →
  ∃ inner, t !! ns = Some inner ∧
    dom inner = list_to_set (filter (λ e, rpc_name ns e ∈ s) eps).
Proof.
  intros Hrun Hns. destruct (createRpcMethods_result c s w t w' Hrun) as [_ Ht].
  exists (fill_endpoints send ns s eps ∅). split; [by rewrite Ht, Hns|].
  apply set_eq. intros e.
  rewrite elem_of_dom, elem_of_list_to_set, list_elem_of_filter,
    lookup_fill_endpoints, lookup_empty.
  case_decide as Hd.
  - destruct Hd as [Hin Hinc]. apply includes_spec in Hinc. split; eauto.
  - split; [intros [? [=]]|]. intros [Hinc Hin]. exfalso. apply Hd.
    split; [done|]. by apply includes_spec.
Qed.

(** Supporting more methods never removes an entry: with a larger
    supported list the namespaces are the same and each namespace object
    only gains entries. *)
Theorem createRpcMethods_mono
    (c : gmap string (list string)) (s1 s2 : list string) w t1 t2 w1 w2 :
  s1 ⊆ s2 →
  createRpcMethods send c s1 w = (inr t1, w1) →
  createRpcMethods send c s2 w = (inr t2, w2) →
  dom t1 = dom t2 ∧
  ∀ ns i1 i2, t1 !! ns = Some i1 → t2 !! ns = Some i2 → i1 ⊆ i2.
Proof.
  intros Hsub H1 H2.
  destruct (createRpcMethods_result c s1 w t1 w1 H1) as [_ Ht1].
  destruct (createRpcMethods_result c s2 w t2 w2 H2) as [_ Ht2].
  split.
  - apply set_eq. intros ns. by rewrite !elem_of_dom, Ht1, Ht2, !fmap_is_Some.
  - intros ns i1 i2 Hi1 Hi2. rewrite Ht1 in Hi1. rewrite Ht2 in Hi2.
    destruct (c !! ns) as [eps|]; simpl in *; [|discriminate].
    injection Hi1 as <-. injection Hi2 as <-.
    apply map_subseteq_spec. intros e f.
    rewrite !lookup_fill_endpoints, !lookup_empty.
    case_decide as Hd; [|discriminate]. intros Hf.
    rewrite decide_True; [done|]. destruct Hd as [Hin Hinc]. split; [done|].
    apply includes_spec. apply includes_spec in Hinc. by apply Hsub.
Qed.

(** Concatenating two supported lists builds, namespace by namespace, the
    union of the objects built from each list. *)
Theorem createRpcMethods_supported_app
    (c : gmap string (list string)) (s1 s2 : list string) w :
  createRpcMethods send c (s1 ++ s2) w =
  (t1 ← createRpcMethods send c s1;
   t2 ← createRpcMethods send c s2;
   mret (union_with (λ i1 i2, Some (i1 ∪ i2)) t1 t2)) w.
Proof.
  unfold mbind, M_MBind, M_bind.
  destruct (createRpcMethods_spec c (s1 ++ s2) w) as [t [-> Ht]].
  destruct (createRpcMethods_spec c s1 w) as [t1 [-> Ht1]].
  destruct (createRpcMethods_spec c s2 w) as [t2 [-> Ht2]].
  unfold mret, M_MRet, M_ret. do 2 f_equal. apply map_eq. intros ns.
  rewrite lookup_union_with, Ht, Ht1, Ht2.
  destruct (c !! ns) as [eps|]; [|done]. simpl. f_equal.
  apply map_eq. intros e. rewrite lookup_union, !lookup_fill_endpoints, !lookup_empty.
  assert (Happ : includes (s1 ++ s2) (rpc_name ns e) = true ↔
                 includes s1 (rpc_name ns e) = true ∨ includes s2 (rpc_name ns e) = true).
  { rewrite !includes_spec. apply elem_of_app. }
  repeat case_decide; naive_solver.
Qed.

(** Namespaces are built independently: the table of the union of two
    catalogs is the union of their tables (the first catalog wins on a
    shared namespace, as in the union of the catalogs). *)
Theorem createRpcMethods_catalog_union
    (c1 c2 : gmap string (list string)) (s : list string) w :
  createRpcMethods send (c1 ∪ c2) s w =
  (t1 ← createRpcMethods send c1 s;
   t2 ← createRpcMethods send c2 s;
   mret (t1 ∪ t2)) w.
Proof.
  unfold mbind, M_MBind, M_bind.
  destruct (createRpcMethods_spec (c1 ∪ c2) s w) as [t [-> Ht]].
  destruct (createRpcMethods_spec c1 s w) as [t1 [-> Ht1]].
  destruct (createRpcMethods_spec c2 s w) as [t2 [-> Ht2]].
  unfold mret, M_MRet, M_ret. do 2 f_equal. apply map_eq. intros ns.
  rewrite lookup_union, Ht, Ht1, Ht2, lookup_union.
  by destruct (c1 !! ns), (c2 !! ns).
Qed.

(** Only the set of names listed per namespace matters: catalogs whose
    lists have the same elements (in any order, with any repetition) give
    the same result. *)
Theorem createRpcMethods_catalog_as_sets
    (c1 c2 : gmap string (list string)) (s : list string) w :
  (λ l : list string, list_to_set l : gset string) <$> c1 =
  (λ l : list string, list_to_set l : gset string) <$> c2 →
  createRpcMethods send c1 s w = createRpcMethods send c2 s w.
Proof.
  intros Hc. apply createRpcMethods_ext. intros ns.
  assert (Hns := f_equal (lookup ns) Hc). rewrite !lookup_fmap in Hns.
  destruct (c1 !! ns) as [e1|], (c2 !! ns) as [e2|]; simpl in *;
    [|discriminate|discriminate|done].
  injection Hns as Hns. f_equal. apply fill_endpoints_ext. intros e.
  rewrite <-!(elem_of_list_to_set (C:=gset string) e), Hns. done.
Qed.

(** Edge cases: with an empty supported list every namespace maps to the
    empty object; an empty catalog gives the empty table. *)
Theorem createRpcMethods_empty_inputs
    (c : gmap string (list string)) (s : list string) w :
  createRpcMethods send c [] w = (inr ((λ _, ∅) <$> c), w) ∧
  createRpcMethods send ∅ s w = (inr ∅, w).
Proof.
  split.
  - destruct (createRpcMethods_spec c [] w) as [t [-> Ht]]. do 2 f_equal.
    apply map_eq. intros ns. rewrite Ht, lookup_fmap.
    destruct (c !! ns) as [eps|]; [|done]. simpl. f_equal.
    apply map_eq. intros e. rewrite lookup_fill_endpoints, lookup_empty.
    case_decide as Hd; [|done]. destruct Hd as [_ Hd]. discriminate.
  - destruct (createRpcMethods_spec ∅ s w) as [t [-> Ht]]. do 2 f_equal.
    apply map_eq. intros ns. by rewrite Ht, !lookup_empty.
Qed.

(** A built callable reads only its first argument: further arguments are
    dropped. *)
Theorem createRpcMethods_extra_args_dropped
    (c : gmap string (list string)) (s : list string) w t w' ns inner e f
    a (rest : list value) :
  createRpcMethods send c s w = (inr t, w') →
  t !! ns = Some inner → inner !! e = Some f →
  f (a :: rest) = f [a].
Proof.
  intros Hrun Hns He. destruct (createRpcMethods_result c s w t w' Hrun) as [_ Ht].
  rewrite Ht in Hns. destruct (c !! ns) as [eps|]; simpl in Hns; [|discriminate].
  injection Hns as <-. rewrite lookup_fill_endpoints, lookup_empty in He.
  case_decide; [|discriminate]. injection He as <-. reflexivity.
Qed.

(** The constructor builds the three network tables each from its own
    catalog and supported list, and names the plugin ["polka"]. *)
Theorem PolkadotPlugin_constructor_fields
    (c1 c2 c3 : gmap string (list string)) (s1 s2 s3 : list string) w :
  ∃ plugin, PolkadotPlugin_constructor send c1 c2 c3 s1 s2 s3 w = (inr plugin, w) ∧
    pluginNamespace plugin = "polka" ∧
    createRpcMethods send c1 s1 w = (inr (polkadot plugin), w) ∧
    createRpcMethods send c2 s2 w = (inr (kusama plugin), w) ∧
    createRpcMethods send c3 s3 w = (inr (substrate plugin), w).
Proof.
  unfold PolkadotPlugin_constructor, mbind, M_MBind, M_bind.
  destruct (createRpcMethods_spec c1 s1 w) as [t1 [H1 _]].
  destruct (createRpcMethods_spec c2 s2 w) as [t2 [H2 _]].
  destruct (createRpcMethods_spec c3 s3 w) as [t3 [H3 _]].
  rewrite H1, H2, H3. eexists. split; [reflexivity|]. done.
Qed.

End Facts.
(** C4. [isLoggedIn] holds exactly when the string stored under the
    account key equals the account's address; with nothing stored it is
    false for every address. It is a total boolean function. *)
Theorem isLoggedIn_spec (key : string) (localStorage : gmap string string)
    (account : Inscribe.InjectedAccountWithMeta) :
  (Inscribe.isLoggedIn key localStorage account = true <->
     localStorage !! key = Some (Inscribe.address account)) ∧
  (localStorage !! key = None -> Inscribe.isLoggedIn key localStorage account = false).
Proof.
  unfold Inscribe.isLoggedIn, Inscribe.storage_get.
  destruct (localStorage !! key) as [v|]; simpl.
  - rewrite String.eqb_eq. split; [split; congruence | discriminate].
  - split; [split; discriminate | done].
Qed.

Example isLoggedIn_scenario :
  let ls := {[ "account" := "0xABC" ]} in
  let acc a := {| Inscribe.address := a; Inscribe.meta_name := None;
                  Inscribe.meta_source := "polkadot-js" |} in
  Inscribe.isLoggedIn "account" ls (acc "0xABC") = true ∧
  Inscribe.isLoggedIn "account" ls (acc "0xDEF") = false ∧
  Inscribe.isLoggedIn "account" ∅ (acc "0xABC") = false.
Proof. repeat split; reflexivity. Qed.

(** The scenarios of the spec, run with the logging collaborator. *)
Example createRpcMethods_scenario :
  createRpcMethods Logging.log_send
    {[ "chain" := ["getBlock"; "getBlockHash"] ]} ["chain_getBlock"] [] =
    (inr {[ "chain" := {[ "getBlock" :=
               endpoint_caller Logging.log_send "chain" "getBlock" ]} ]}, []).
Proof. reflexivity. Qed.

Example call_scenario :
  endpoint_caller Logging.log_send "chain" "getBlock" [VString "0xhash"] [] =
    (inr 0, [{| method := "chain_getBlock"; params := [VString "0xhash"] |}]).
Proof. reflexivity. Qed.

Example sample_run :
  createRpcMethods Logging.log_send Logging.sample_catalog
    Logging.sample_supported [] = (inr Logging.sample_table, []).
Proof. reflexivity. Qed.

Lemma createRpcMethods_entries_supported_witness :
  createRpcMethods Logging.log_send Logging.sample_catalog
    Logging.sample_supported [] = (inr Logging.sample_table, []) ∧
  ((∀ ns inner ep f, Logging.sample_table !! ns = Some inner →
      inner !! ep = Some f →
      (∃ eps, Logging.sample_catalog !! ns = Some eps ∧ ep ∈ eps) ∧
      rpc_name ns ep ∈ Logging.sample_supported ∧
      ∀ arguments, f arguments =
        Logging.log_send {| method := rpc_name ns ep;
                            params := [first_arg arguments] |}) ∧
   (∀ ns inner ep, Logging.sample_table !! ns = Some inner →
      rpc_name ns ep ∉ Logging.sample_supported → inner !! ep = None)).
Proof.
  split; [reflexivity|].
  apply (createRpcMethods_entries_supported Logging.log_send
           Logging.sample_catalog Logging.sample_supported [] Logging.sample_table []).
  reflexivity.
Defined.

Lemma createRpcMethods_call_forwards_witness :
  createRpcMethods Logging.log_send Logging.sample_catalog
    Logging.sample_supported [] = (inr Logging.sample_table, []) ∧
  ∃ inner f, Logging.sample_table !! "chain" = Some inner ∧
    inner !! "getBlock" = Some f ∧
    f [VString "0xhash"] =
      Logging.log_send {| method := rpc_name "chain" "getBlock";
                          params := [VString "0xhash"] |}.
Proof.
  split; [reflexivity|].
  apply (createRpcMethods_call_forwards Logging.log_send
           Logging.sample_catalog Logging.sample_supported [] Logging.sample_table []
           "chain" ["getBlock"; "getBlockHash"; "getBlock"] "getBlock" (VString "0xhash")).
  - reflexivity.
  - reflexivity.
  - apply (bool_decide_unpack _). vm_compute. reflexivity.
  - apply (bool_decide_unpack _). vm_compute. reflexivity.
Defined.

Lemma createRpcMethods_keeps_namespaces_witness :
  createRpcMethods Logging.log_send Logging.sample_catalog
    Logging.sample_supported [] = (inr Logging.sample_table, []) ∧
  dom Logging.sample_table = dom Logging.sample_catalog ∧
  (∀ ns (eps : list string), Logging.sample_catalog !! ns = Some eps →
     (∀ e, e ∈ eps → rpc_name ns e ∉ Logging.sample_supported) →
     Logging.sample_table !! ns = Some ∅) ∧
  createRpcMethods Logging.log_send {[ "chain" := [] ]} [] [] =
    (inr {[ "chain" := ∅ ]}, []).
Proof.
  split; [reflexivity|].
  apply (createRpcMethods_keeps_namespaces Logging.log_send
           Logging.sample_catalog Logging.sample_supported [] Logging.sample_table []).
  reflexivity.
Defined.

Lemma createRpcMethods_single_param_witness :
  createRpcMethods Logging.log_send Logging.sample_catalog
    Logging.sample_supported [] = (inr Logging.sample_table, []) ∧
  (∀ arguments, ∃ a,
     endpoint_caller Logging.log_send "chain" "getBlock" arguments =
       Logging.log_send {| method := rpc_name "chain" "getBlock"; params := [a] |}) ∧
  endpoint_caller Logging.log_send "chain" "getBlock" [] =
    Logging.log_send {| method := rpc_name "chain" "getBlock"; params := [VUndefined] |}.
Proof.
  split; [reflexivity|].
  apply (createRpcMethods_single_param Logging.log_send
           Logging.sample_catalog Logging.sample_supported [] Logging.sample_table []
           "chain" {[ "getBlock" := endpoint_caller Logging.log_send "chain" "getBlock" ]}
           "getBlock").
  - reflexivity.
  - reflexivity.
  - reflexivity.
Defined.

Lemma createRpcMethods_supported_as_set_witness :
  list_to_set ["chain_getBlock"; "system_health"; "chain_getBlock"] =@{gset string}
    list_to_set ["system_health"; "chain_getBlock"] ∧
  createRpcMethods Logging.log_send Logging.sample_catalog
    ["chain_getBlock"; "system_health"; "chain_getBlock"] [] =
  createRpcMethods Logging.log_send Logging.sample_catalog
    ["system_health"; "chain_getBlock"] [].
Proof.
  split; [reflexivity|].
  apply (createRpcMethods_supported_as_set Logging.log_send Logging.sample_catalog).
  reflexivity.
Defined.

(** ** Further properties of [isLoggedIn] *)

(** Storing the account's address under the account key makes it logged
    in; removing the key logs every account out. *)
Theorem isLoggedIn_store_roundtrip (key : string)
    (localStorage : gmap string string)
    (account : Inscribe.InjectedAccountWithMeta) :
  Inscribe.isLoggedIn key (<[key := Inscribe.address account]> localStorage) account = true ∧
  Inscribe.isLoggedIn key (delete key localStorage) account = false.
Proof.
  unfold Inscribe.isLoggedIn, Inscribe.storage_get.
  rewrite lookup_insert_eq, lookup_delete_eq. simpl.
  split; [apply String.eqb_refl | done].
Qed.

(** Writing or removing any other key of the store does not change the
    answer. *)
Theorem isLoggedIn_other_keys (key k v : string)
    (localStorage : gmap string string)
    (account : Inscribe.InjectedAccountWithMeta) :
  k ≠ key →
  Inscribe.isLoggedIn key (<[k := v]> localStorage) account =
    Inscribe.isLoggedIn key localStorage account ∧
  Inscribe.isLoggedIn key (delete k localStorage) account =
    Inscribe.isLoggedIn key localStorage account.
Proof.
  intros Hne. unfold Inscribe.isLoggedIn, Inscribe.storage_get.
  by rewrite lookup_insert_ne, lookup_delete_ne.
Qed.

(** At most one address is logged in at a time: two accounts both
    reported logged in have the same address. *)
Theorem isLoggedIn_unique_address (key : string)
    (localStorage : gmap string string)
    (a1 a2 : Inscribe.InjectedAccountWithMeta) :
  Inscribe.isLoggedIn key localStorage a1 = true →
  Inscribe.isLoggedIn key localStorage a2 = true →
  Inscribe.address a1 = Inscribe.address a2.
Proof.
  intros H1 H2. apply isLoggedIn_spec in H1. apply isLoggedIn_spec in H2.
  congruence.
Qed.

Lemma isLoggedIn_other_keys_witness :
  "theme" ≠ "account" ∧
  Inscribe.isLoggedIn "account" (<[ "theme" := "dark" ]> {[ "account" := "0xABC" ]})
    {| Inscribe.address := "0xABC"; Inscribe.meta_name := None;
       Inscribe.meta_source := "polkadot-js" |} =
  Inscribe.isLoggedIn "account" {[ "account" := "0xABC" ]}
    {| Inscribe.address := "0xABC"; Inscribe.meta_name := None;
       Inscribe.meta_source := "polkadot-js" |} ∧
  Inscribe.isLoggedIn "account" (delete "theme" {[ "account" := "0xABC" ]})
    {| Inscribe.address := "0xABC"; Inscribe.meta_name := None;
       Inscribe.meta_source := "polkadot-js" |} =
  Inscribe.isLoggedIn "account" {[ "account" := "0xABC" ]}
    {| Inscribe.address := "0xABC"; Inscribe.meta_name := None;
       Inscribe.meta_source := "polkadot-js" |}.
Proof.
  assert (Hne : "theme" ≠ "account") by (apply (bool_decide_unpack _); vm_compute; reflexivity).
  split; [exact Hne|]. apply isLoggedIn_other_keys. exact Hne.
Defined.

Lemma isLoggedIn_unique_address_witness :
  Inscribe.isLoggedIn "account" {[ "account" := "0xABC" ]}
    {| Inscribe.address := "0xABC"; Inscribe.meta_name := Some "alice";
       Inscribe.meta_source := "polkadot-js" |} = true ∧
  Inscribe.isLoggedIn "account" {[ "account" := "0xABC" ]}
    {| Inscribe.address := "0xABC"; Inscribe.meta_name := None;
       Inscribe.meta_source := "talisman" |} = true ∧
  Inscribe.address {| Inscribe.address := "0xABC"; Inscribe.meta_name := Some "alice";
       Inscribe.meta_source := "polkadot-js" |} =
  Inscribe.address {| Inscribe.address := "0xABC"; Inscribe.meta_name := None;
       Inscribe.meta_source := "talisman" |}.
Proof.
  split; [reflexivity|]. split; [reflexivity|].
  apply (isLoggedIn_unique_address "account" {[ "account" := "0xABC" ]}); reflexivity.
Defined.

Lemma createRpcMethods_inner_keys_witness :
  createRpcMethods Logging.log_send Logging.sample_catalog
    Logging.sample_supported [] = (inr Logging.sample_table, []) ∧
  Logging.sample_catalog !! "chain" = Some ["getBlock"; "getBlockHash"; "getBlock"] ∧
  ∃ inner, Logging.sample_table !! "chain" = Some inner ∧
    dom inner = list_to_set (filter (λ e, rpc_name "chain" e ∈ Logging.sample_supported)
                                    ["getBlock"; "getBlockHash"; "getBlock"]).
Proof.
  split; [reflexivity|]. split; [reflexivity|].
  apply (createRpcMethods_inner_keys Logging.log_send Logging.sample_catalog
           Logging.sample_supported [] Logging.sample_table [] "chain"); reflexivity.
Defined.

Lemma createRpcMethods_mono_witness :
  ["chain_getBlock"] ⊆ ["chain_getBlock"; "chain_getBlockHash"] ∧
  createRpcMethods Logging.log_send Logging.sample_catalog ["chain_getBlock"] [] =
    (inr Logging.sample_table, []) ∧
  createRpcMethods Logging.log_send Logging.sample_catalog
    ["chain_getBlock"; "chain_getBlockHash"] [] =
    (inr {[ "chain" := {[ "getBlock" := endpoint_caller Logging.log_send "chain" "getBlock";
                          "getBlockHash" :=
                            endpoint_caller Logging.log_send "chain" "getBlockHash" ]};
            "state" := ∅ ]}, []) ∧
  dom Logging.sample_table =
    dom ({[ "chain" := {[ "getBlock" := endpoint_caller Logging.log_send "chain" "getBlock";
                          "getBlockHash" :=
                            endpoint_caller Logging.log_send "chain" "getBlockHash" ]};
            "state" := ∅ ]} : gmap string (gmap string (callable (W:=list request) (Resp:=nat)))) ∧
  ∀ ns i1 i2, Logging.sample_table !! ns = Some i1 →
    ({[ "chain" := {[ "getBlock" := endpoint_caller Logging.log_send "chain" "getBlock";
                      "getBlockHash" :=
                        endpoint_caller Logging.log_send "chain" "getBlockHash" ]};
        "state" := ∅ ]} : gmap string (gmap string (callable (W:=list request) (Resp:=nat))))
      !! ns = Some i2 → i1 ⊆ i2.
Proof.
  assert (Hsub : ["chain_getBlock"] ⊆ ["chain_getBlock"; "chain_getBlockHash"])
    by (apply (bool_decide_unpack _); vm_compute; reflexivity).
  split; [exact Hsub|]. split; [reflexivity|]. split; [reflexivity|].
  apply (createRpcMethods_mono Logging.log_send Logging.sample_catalog
           ["chain_getBlock"] ["chain_getBlock"; "chain_getBlockHash"] []
           Logging.sample_table _ [] []); [exact Hsub|reflexivity|reflexivity].
Defined.

Lemma createRpcMethods_catalog_as_sets_witness :
  (λ l : list string, list_to_set l : gset string) <$> Logging.sample_catalog =
  (λ l : list string, list_to_set l : gset string) <$>
    ({[ "chain" := ["getBlockHash"; "getBlock"];
        "state" := ["getStorage"; "getStorage"] ]} : gmap string (list string)) ∧
  createRpcMethods Logging.log_send Logging.sample_catalog Logging.sample_supported [] =
  createRpcMethods Logging.log_send
    {[ "chain" := ["getBlockHash"; "getBlock"];
       "state" := ["getStorage"; "getStorage"] ]} Logging.sample_supported [].
Proof.
  split; [vm_compute; reflexivity|].
  apply (createRpcMethods_catalog_as_sets Logging.log_send). vm_compute. reflexivity.
Defined.

Lemma createRpcMethods_extra_args_dropped_witness :
  createRpcMethods Logging.log_send Logging.sample_catalog
    Logging.sample_supported [] = (inr Logging.sample_table, []) ∧
  Logging.sample_table !! "chain" =
    Some {[ "getBlock" := endpoint_caller Logging.log_send "chain" "getBlock" ]} ∧
  ({[ "getBlock" := endpoint_caller Logging.log_send "chain" "getBlock" ]}
     : gmap string (callable (W:=list request) (Resp:=nat))) !! "getBlock" =
    Some (endpoint_caller Logging.log_send "chain" "getBlock") ∧
  endpoint_caller Logging.log_send "chain" "getBlock" [VString "0xhash"; VNumber 7] =
  endpoint_caller Logging.log_send "chain" "getBlock" [VString "0xhash"].
Proof.
  split; [reflexivity|]. split; [reflexivity|]. split; [reflexivity|].
  apply (createRpcMethods_extra_args_dropped Logging.log_send Logging.sample_catalog
           Logging.sample_supported [] Logging.sample_table [] "chain"
           {[ "getBlock" := endpoint_caller Logging.log_send "chain" "getBlock" ]}
           "getBlock"); reflexivity.
Defined.

End Proofs.
